(** * redis-stream-to-aws-lambda: the bridge process of [main.go]

    A shallow embedding of the single Go file of the repository.  The
    process talks to two collaborators, the stream store (go-redis) and
    the compute target (the AWS Lambda client).  Every call the program
    makes and every log line it prints is recorded, in program order, in
    a trace of events; the answers of the collaborators are inputs of the
    model, so that each statement below holds for every behaviour of the
    store and of the compute target. *)

From Stdlib Require Import ZArith Ascii String.
From stdpp Require Import base tactics option list gmap strings sorting.

Local Open Scope string_scope.
Local Open Scope list_scope.
Local Open Scope Z_scope.

(** ** Go library functions used by the program *)

Module strings.

(** [strings.Split(s, sep)] for a one-byte separator: the substrings of
    [s] between the separators; a string with no separator (the empty
    string too) yields the one-element slice holding [s]. *)
Fixpoint Split (s : string) (sep : ascii) : list string :=
  match s with
  | EmptyString => [EmptyString]
  | String c rest =>
      if Ascii.eqb c sep then EmptyString :: Split rest sep
      else match Split rest sep with
           | head :: tail => String c head :: tail
           | [] => [String c EmptyString]
           end
  end.

(** [strings.Contains(s, substr)]: [substr] occurs within [s]. *)
Fixpoint Contains (s substr : string) : bool :=
  String.prefix substr s ||
  match s with
  | EmptyString => false
  | String _ rest => Contains rest substr
  end.

(** [strings.Join(elems, sep)]. *)
Fixpoint Join (elems : list string) (sep : string) : string :=
  match elems with
  | [] => EmptyString
  | [e] => e
  | e :: rest => e +:+ sep +:+ Join rest sep
  end.

End strings.

(** The byte [0x22], written apart since it delimits string literals. *)
Definition dquote : string := String (Ascii.ascii_of_nat 34) EmptyString.

Module fmt.

(** Keys of a map are printed in increasing order (package
    [internal/fmtsort]); Go compares strings byte by byte. *)
Definition key_le (p q : string * string) : Prop := String.le p.1 q.1.

#[global] Instance key_le_dec : RelDecision key_le :=
  λ p q, decide (String.le p.1 q.1).

Definition sorted_fields (m : gmap string string) : list (string * string) :=
  merge_sort key_le (map_to_list m).

(** The verb [%v] applied to a [map[string]interface{}] whose values are
    strings: [map[k1:v1 k2:v2]], neither keys nor values quoted. *)
Definition v_map (m : gmap string string) : string :=
  "map[" +:+ strings.Join (map (λ kv, kv.1 +:+ ":" +:+ kv.2) (sorted_fields m)) " "
         +:+ "]".

End fmt.

(** ** Data of the collaborators *)

(** [redis.XMessage].  The values of a stream entry reach the program as
    Go strings (go-redis reads every field value with [ReadString]). *)
Record XMessage := mkXMessage {
  ID : string;
  Values : gmap string string
}.

(** [redis.XReadGroupArgs]; [Block] is a [time.Duration] (an int64),
    [NoAck] is left at its zero value by the program. *)
Record XReadGroupArgs := mkXReadGroupArgs {
  Group : string;
  Consumer : string;
  Streams : list string;
  Count : Z;
  Block : Z;
  NoAck : bool
}.

(** [lambda.InvokeOutput], the two fields the program reads.  The SDK
    fills [StatusCode] from the HTTP response whenever it returns no
    error, so the field is never nil there. *)
Record InvokeOutput := mkInvokeOutput {
  StatusCode : Z;
  Payload : string
}.

(** What [lambdaClient.Invoke] returns: [(result, err)]. *)
Inductive invoke_reply :=
| InvokeErr (err : string)
| InvokeOk (result : InvokeOutput).

(** A Go [error] value: [None] is [nil], [Some e] an error whose
    [Error()] text is [e]. *)
Abbreviation error := (option string).

(** A message handed over by [XReadGroup], together with the answers the
    collaborators give to the two calls the loop may make for it: the
    invocation of the compute target and the acknowledgment.  Both calls
    are taken to be answered: a run left waiting inside an invocation is
    a prefix of the runs described here. *)
Record delivery := mkDelivery {
  message : XMessage;
  invoke_result : invoke_reply;
  xack_result : error
}.

(** [redis.XStream]: a stream name and the messages claimed from it. *)
Record XStream := mkXStream {
  Stream : string;
  Messages : list delivery
}.

(** What [rdb.XReadGroup(...).Result()] returns: [(entries, err)]. *)
Inductive read_reply :=
| ReadErr (err : string)
| ReadOk (entries : list XStream).

(** ** Events and the process monad *)

(** An argument of a [log.Printf] call.  A log line is kept as its format
    string and its arguments. *)
Inductive arg :=
| AStr (s : string)
| AInt (n : Z).

Inductive event :=
| EvXGroupCreateMkStream (stream group start : string)
| EvXReadGroup (a : XReadGroupArgs)
| EvInvoke (functionName payload : string)
| EvXAck (stream group id : string)
| EvPrintf (format : string) (args : list arg)
| EvFatalf (format : string) (args : list arg).

(** Why a run stops: [os.Exit] (from [log.Fatalf]), a panic, or the
    process waiting in a blocking call for an answer beyond the scripted
    ones. *)
Inductive halt :=
| Exited (code : Z)
| Panicked (cause : string)
| Blocked.

(** A computation: the events it produced and either the reason it
    stopped or its value. *)
Definition proc (A : Type) : Type := list event * (halt + A).

#[global] Instance proc_ret : MRet proc := λ A a, ([], inr a).

(** Sequencing: the events of the first computation come first, and
    nothing runs after a computation that stopped. *)
#[global] Instance proc_bind : MBind proc := λ A B k m,
  match m.2 with
  | inl h => (m.1, inl h)
  | inr a => let r := k a in (m.1 ++ r.1, r.2)
  end.

Definition emit (e : event) : proc unit := ([e], inr tt).
Definition stop {A} (h : halt) : proc A := ([], inl h).

Module log.
Definition Printf (format : string) (args : list arg) : proc unit :=
  emit (EvPrintf format args).
(** [log.Fatalf] prints and then calls [os.Exit(1)]. *)
Definition Fatalf {A} (format : string) (args : list arg) : proc A :=
  emit (EvFatalf format args);; stop (Exited 1).
End log.

(** ** The program *)

(** The four variables read with [os.Getenv]. *)
Record Environ := mkEnviron {
  REDIS_URL : string;
  REDIS_STREAMS : string;
  CONSUMER_GROUP : string;
  LAMBDA_NAME : string
}.

(** The answers of the outside world to one run of the process:
    the error of [redis.ParseURL] on a URL, the error of the [k]-th
    [XGroupCreateMkStream] call, the error of [session.NewSession], and
    the answers to the successive [XReadGroup] calls (a finite prefix of
    a run that has no end of its own). *)
Record World := mkWorld {
  ParseURL_err : string → error;
  XGroupCreateMkStream_err : nat → error;
  NewSession_err : error;
  XReadGroup_replies : list read_reply
}.

Definition BUSYGROUP : string := "BUSYGROUP Consumer Group name already exists".

Definition initializeRedisClient (w : World) (redisURL : string) : proc unit :=
  match ParseURL_err w redisURL with
  | Some err => log.Fatalf "Failed to parse Redis URL: %v" [AStr err]
  | None => mret tt
  end.

Definition splitStreams (streams : string) : list string :=
  strings.Split streams ",".

Definition ensureConsumerGroupExists (reply : error) (stream consumerGroup : string)
  : proc unit :=
  emit (EvXGroupCreateMkStream stream consumerGroup "$");;
  match reply with
  | Some err =>
      if strings.Contains err BUSYGROUP then
        log.Printf "Consumer group %s already exists for stream %s, skipping creation."
          [AStr consumerGroup; AStr stream]
      else
        log.Fatalf "Error creating consumer group: %v" [AStr err]
  | None =>
      log.Printf "Consumer group %s created for stream %s."
        [AStr consumerGroup; AStr stream]
  end.

(** [for _, stream := range streamList { ensureConsumerGroupExists(...) }];
    [k] counts the creation calls made so far. *)
Fixpoint ensure_each (w : World) (k : nat) (streamList : list string)
    (consumerGroup : string) : proc unit :=
  match streamList with
  | [] => mret tt
  | stream :: rest =>
      ensureConsumerGroupExists (XGroupCreateMkStream_err w k) stream consumerGroup;;
      ensure_each w (S k) rest consumerGroup
  end.

(** [[]byte(fmt.Sprintf(`{"message": "%v"}`, message.Values))]. *)
Definition payload_of (msg : XMessage) : string :=
  "{" +:+ dquote +:+ "message" +:+ dquote +:+ ": " +:+ dquote
      +:+ fmt.v_map (Values msg) +:+ dquote +:+ "}".

Definition invokeLambda (reply : invoke_reply) (functionName : string)
    (msg : XMessage) : proc error :=
  let payload := payload_of msg in
  emit (EvInvoke functionName payload);;
  match reply with
  | InvokeErr err => mret (Some err)
  | InvokeOk result =>
      log.Printf "Lambda invoked successfully. StatusCode: %d, Payload: %s"
        [AInt (StatusCode result); AStr (Payload result)];;
      mret None
  end.

(** The body of the inner loop of [main], for one message of one entry. *)
Definition process_message (consumerGroup lambdaName stream : string)
    (d : delivery) : proc unit :=
  let msg := message d in
  log.Printf "Processing message ID: %s from stream: %s" [AStr (ID msg); AStr stream];;
  err ← invokeLambda (invoke_result d) lambdaName msg;
  match err with
  | Some e => log.Printf "Error invoking Lambda: %v" [AStr e]
  | None =>
      emit (EvXAck stream consumerGroup (ID msg));;
      log.Printf "Message ID %s acknowledged in consumer group %s"
        [AStr (ID msg); AStr consumerGroup]
  end.

(** [for _, message := range entry.Messages { ... }]. *)
Fixpoint range_messages (consumerGroup lambdaName stream : string)
    (messages : list delivery) : proc unit :=
  match messages with
  | [] => mret tt
  | d :: rest =>
      process_message consumerGroup lambdaName stream d;;
      range_messages consumerGroup lambdaName stream rest
  end.

(** [for _, entry := range entries { ... }]. *)
Fixpoint range_entries (consumerGroup lambdaName : string)
    (entries : list XStream) : proc unit :=
  match entries with
  | [] => mret tt
  | entry :: rest =>
      range_messages consumerGroup lambdaName (Stream entry) (Messages entry);;
      range_entries consumerGroup lambdaName rest
  end.

(** The argument of the [XReadGroup] call of every iteration. *)
Definition read_args (streamList : list string) (consumerGroup : string)
  : XReadGroupArgs :=
  {| Group := consumerGroup;
     Consumer := "consumer-1";
     Streams := streamList ++ [">"];
     Count := 10;
     Block := 0;
     NoAck := false |}.

(** One pass through the body of the endless [for { ... }] of [main],
    given the answer to its read. *)
Definition iteration (streamList : list string) (consumerGroup lambdaName : string)
    (reply : read_reply) : proc unit :=
  emit (EvXReadGroup (read_args streamList consumerGroup));;
  match reply with
  | ReadErr err =>
      log.Printf "Error reading from Redis stream: %v" [AStr err]
  | ReadOk entries =>
      range_entries consumerGroup lambdaName entries
  end.

(** The loop itself, run against the scripted answers to its reads; once
    they are used up the process waits in the next read. *)
Fixpoint consume (streamList : list string) (consumerGroup lambdaName : string)
    (replies : list read_reply) : proc unit :=
  match replies with
  | [] =>
      emit (EvXReadGroup (read_args streamList consumerGroup));;
      stop Blocked
  | reply :: later =>
      iteration streamList consumerGroup lambdaName reply;;
      consume streamList consumerGroup lambdaName later
  end.

(** [session.Must(session.NewSession())] panics on an error. *)
Definition session_Must (w : World) : proc unit :=
  match NewSession_err w with
  | Some err => stop (Panicked err)
  | None => mret tt
  end.

Definition main (env : Environ) (w : World) : proc unit :=
  let redisURL := REDIS_URL env in
  let streams := REDIS_STREAMS env in
  let consumerGroup := CONSUMER_GROUP env in
  let lambdaName := LAMBDA_NAME env in
  initializeRedisClient w redisURL;;
  let streamList := splitStreams streams in
  ensure_each w 0 streamList consumerGroup;;
  session_Must w;;
  consume streamList consumerGroup lambdaName (XReadGroup_replies w).

(** ** Reading traces *)

(** The calls made to the collaborators, log lines left out. *)
Definition is_call (e : event) : bool :=
  match e with
  | EvXGroupCreateMkStream _ _ _ | EvXReadGroup _ | EvInvoke _ _ | EvXAck _ _ _ => true
  | EvPrintf _ _ | EvFatalf _ _ => false
  end.

Definition calls (t : list event) : list event := List.filter is_call t.

(** A creation answer the initializer lives with: no error, or an error
    whose text holds the BUSYGROUP phrase somewhere. *)
Definition tolerated (reply : error) : Prop :=
  match reply with
  | None => True
  | Some err => strings.Contains err BUSYGROUP = true
  end.

(** The calls the loop makes for one message: the invocation and, when
    the invocation returned no error, the acknowledgment. *)
Definition message_calls (consumerGroup lambdaName stream : string) (d : delivery)
  : list event :=
  EvInvoke lambdaName (payload_of (message d)) ::
  match invoke_result d with
  | InvokeOk _ => [EvXAck stream consumerGroup (ID (message d))]
  | InvokeErr _ => []
  end.

(** The creation call of the initializer for one stream. *)
Definition create_call (consumerGroup stream : string) : event :=
  EvXGroupCreateMkStream stream consumerGroup "$".

(** The invocation came back without a call error. *)
Definition returned_no_error (r : invoke_reply) : bool :=
  match r with InvokeOk _ => true | InvokeErr _ => false end.

(** The response validation of the SDK behind [lambdaClient.Invoke]
    ([corehandlers.ValidateResponseHandler]): an HTTP status of 0 or of
    300 and above makes the request fail. *)
Definition success_status (status : Z) : bool :=
  negb ((status =? 0) || (300 <=? status)).

(** What the service does with one Invoke request, as the client sees
    it: no HTTP response (the request failed with [err]), or a response
    with a status and a body. *)
Inductive http_outcome :=
| NoResponse (err : string)
| Response (status : Z) (body : string).

(** [lambdaClient.Invoke] over such an outcome: a response with a failure
    status comes back as an error, never as a result; [unmarshalError]
    stands for the text of the error the SDK builds from it. *)
Definition lambda_Invoke (unmarshalError : Z → string → string) (o : http_outcome)
  : invoke_reply :=
  match o with
  | NoResponse err => InvokeErr err
  | Response status body =>
      if success_status status
      then InvokeOk {| StatusCode := status; Payload := body |}
      else InvokeErr (unmarshalError status body)
  end.

(** A reply the client can give: a result is only returned with a
    success status. *)
Definition from_client (r : invoke_reply) : bool :=
  match r with
  | InvokeOk result => success_status (StatusCode result)
  | InvokeErr _ => true
  end.

(** Success of an invocation: no call error and a success status. *)
Definition returned_success_status (r : invoke_reply) : bool :=
  match r with
  | InvokeOk result => success_status (StatusCode result)
  | InvokeErr _ => false
  end.

(** [main] once the URL has parsed. *)
Definition after_client (env : Environ) (w : World) : proc unit :=
  ensure_each w 0 (splitStreams (REDIS_STREAMS env)) (CONSUMER_GROUP env);;
  session_Must w;;
  consume (splitStreams (REDIS_STREAMS env)) (CONSUMER_GROUP env) (LAMBDA_NAME env)
    (XReadGroup_replies w).

(** ** Sample inputs *)

Definition env_orders : Environ :=
  mkEnviron "redis://localhost:6379" "orders,payments" "g1" "fn".

Definition env_empty : Environ :=
  mkEnviron "redis://localhost:6379" EmptyString "g1" "fn".

Definition quiet_world : World := mkWorld (λ _, None) (λ _, None) None [].

(** A group named by the BUSYGROUP phrase, and a store that does not
    know the creation command and says so with the arguments it got. *)
Definition env_phrase : Environ :=
  mkEnviron "redis://localhost:6379" "orders" BUSYGROUP "fn".

Definition unknown_command : string :=
  "ERR unknown command 'xgroup', with args beginning with: 'create' 'orders' '"
  +:+ BUSYGROUP +:+ "' '$' 'mkstream' ".

Definition world_unknown_command : World :=
  mkWorld (λ _, None) (λ _, Some unknown_command) None [].

Definition batch_one_ok_one_failed : list XStream :=
  [mkXStream "orders"
     [mkDelivery (mkXMessage "1-0" {[ "user" := "42" ]})
        (InvokeOk (mkInvokeOutput 200 "ok")) None;
      mkDelivery (mkXMessage "2-0" {[ "user" := "43" ]})
        (InvokeErr "ServiceException: status code: 500") None]].

Definition msg_one_field : XMessage :=
  mkXMessage "1-0" {[ "a" := "b c:d" ]}.

Definition msg_two_fields : XMessage :=
  mkXMessage "1-0" (<[ "a" := "b" ]> {[ "c" := "d" ]}).

(** ** Further readings of strings and traces *)

(** How often the byte [c] occurs in [s]. *)
Fixpoint count_byte (c : ascii) (s : string) : nat :=
  match s with
  | EmptyString => 0%nat
  | String a rest => ((if Ascii.eqb a c then 1 else 0) + count_byte c rest)%nat
  end.

Definition comma : ascii := ",".

Definition is_read (e : event) : bool :=
  match e with EvXReadGroup _ => true | _ => false end.

Definition is_invoke (e : event) : bool :=
  match e with EvInvoke _ _ => true | _ => false end.

Definition is_ack (e : event) : bool :=
  match e with EvXAck _ _ _ => true | _ => false end.

(** All messages of a batch, entry after entry. *)
Definition batch_deliveries (entries : list XStream) : list delivery :=
  flat_map Messages entries.

(** What an event of the dispatch loop may be: a read with the fixed
    arguments, an invocation of the configured function, an
    acknowledgment under the configured group, or a plain log line. *)
Definition loop_event (streamList : list string) (consumerGroup lambdaName : string)
    (e : event) : Prop :=
  match e with
  | EvXReadGroup a => a = read_args streamList consumerGroup
  | EvInvoke functionName _ => functionName = lambdaName
  | EvXAck _ group _ => group = consumerGroup
  | EvPrintf _ _ => True
  | EvXGroupCreateMkStream _ _ _ | EvFatalf _ _ => False
  end.

(** ** Laws of sequencing *)

Section sequencing.
Context {A B : Type}.
Implicit Types (m : proc A) (k : A → proc B).

Lemma bind_returns m k a :
  m.2 = inr a → (m ≫= k) = (m.1 ++ (k a).1, (k a).2).
Proof. destruct m as [t r]; simpl; intros ->. reflexivity. Qed.

Lemma bind_stops m k h :
  m.2 = inl h → (m ≫= k) = (m.1, inl h).
Proof. destruct m as [t r]; simpl; intros ->. reflexivity. Qed.

Lemma ret_bind (a : A) k : (mret a ≫= k) = k a.
Proof. unfold mret, proc_ret, mbind, proc_bind. simpl. by destruct (k a). Qed.
End sequencing.

(** Facts of the form [m.2 = inr tt] are collected here; [run_head]
    uses them to step over the first computation of a sequence. *)
Create HintDb returns.

Ltac run_head := rewrite (bind_returns _ _ tt) by eauto with returns.

Lemma calls_app (t1 t2 : list event) : calls (t1 ++ t2) = calls t1 ++ calls t2.
Proof. unfold calls. apply List.filter_app. Qed.

Lemma elem_of_calls (e : event) (t : list event) :
  e ∈ calls t ↔ e ∈ t ∧ is_call e = true.
Proof. unfold calls. rewrite !list_elem_of_In. apply List.filter_In. Qed.

(** ** The batch loops *)

Section batch.
Variables consumerGroup lambdaName : string.

Lemma process_message_returns stream d :
  (process_message consumerGroup lambdaName stream d).2 = inr tt.
Proof. destruct d as [msg [err|out] ack]; reflexivity. Qed.
#[local] Hint Resolve process_message_returns : returns.

Lemma process_message_calls stream d :
  calls (process_message consumerGroup lambdaName stream d).1
  = message_calls consumerGroup lambdaName stream d.
Proof. destruct d as [msg [err|out] ack]; reflexivity. Qed.

Lemma range_messages_returns stream messages :
  (range_messages consumerGroup lambdaName stream messages).2 = inr tt.
Proof.
  induction messages as [|d rest IH]; cbn [range_messages]; [reflexivity|].
  run_head.
  exact IH.
Qed.
#[local] Hint Resolve range_messages_returns : returns.

Lemma range_messages_calls stream messages :
  calls (range_messages consumerGroup lambdaName stream messages).1
  = flat_map (message_calls consumerGroup lambdaName stream) messages.
Proof.
  induction messages as [|d rest IH]; cbn [range_messages flat_map];
    [reflexivity|].
  run_head.
  cbn [fst]. rewrite calls_app, process_message_calls, IH. reflexivity.
Qed.

Lemma range_entries_returns entries :
  (range_entries consumerGroup lambdaName entries).2 = inr tt.
Proof.
  induction entries as [|entry rest IH]; cbn [range_entries]; [reflexivity|].
  run_head.
  exact IH.
Qed.
#[local] Hint Resolve range_entries_returns : returns.

Lemma range_entries_calls entries :
  calls (range_entries consumerGroup lambdaName entries).1
  = flat_map (λ entry, flat_map (message_calls consumerGroup lambdaName (Stream entry))
                         (Messages entry)) entries.
Proof.
  induction entries as [|entry rest IH]; cbn [range_entries flat_map];
    [reflexivity|].
  run_head.
  cbn [fst]. rewrite calls_app, range_messages_calls, IH. reflexivity.
Qed.

Lemma elem_of_message_calls_ack stream d s g i :
  EvXAck s g i ∈ message_calls consumerGroup lambdaName stream d
  ↔ s = stream ∧ g = consumerGroup ∧ i = ID (message d)
    ∧ ∃ result, invoke_result d = InvokeOk result.
Proof.
  unfold message_calls. destruct (invoke_result d) as [err|out].
  - rewrite list_elem_of_singleton. split; [discriminate|].
    intros (_ & _ & _ & result & H). discriminate.
  - rewrite elem_of_cons, list_elem_of_singleton. split.
    + intros [H|H]; [discriminate|]. injection H as -> -> ->. eauto.
    + intros (-> & -> & -> & _). right. reflexivity.
Qed.
End batch.

#[local] Hint Resolve process_message_returns range_messages_returns
  range_entries_returns : returns.

Section batch_traces.
Variables consumerGroup lambdaName : string.

Lemma range_messages_events stream messages :
  (range_messages consumerGroup lambdaName stream messages).1
  = flat_map (λ d, (process_message consumerGroup lambdaName stream d).1) messages.
Proof.
  induction messages as [|d rest IH]; cbn [range_messages flat_map];
    [reflexivity|].
  run_head.
  cbn [fst]. rewrite IH. reflexivity.
Qed.

Lemma range_entries_events entries :
  (range_entries consumerGroup lambdaName entries).1
  = flat_map (λ entry,
      flat_map (λ d, (process_message consumerGroup lambdaName (Stream entry) d).1)
               (Messages entry)) entries.
Proof.
  induction entries as [|entry rest IH]; cbn [range_entries flat_map];
    [reflexivity|].
  run_head.
  cbn [fst]. rewrite range_messages_events, IH. reflexivity.
Qed.

Lemma elem_of_range_entries_ack entries s g i :
  EvXAck s g i ∈ (range_entries consumerGroup lambdaName entries).1
  ↔ g = consumerGroup ∧
    ∃ entry d, entry ∈ entries ∧ d ∈ Messages entry ∧
               s = Stream entry ∧ i = ID (message d) ∧
               ∃ result, invoke_result d = InvokeOk result.
Proof.
  transitivity (EvXAck s g i ∈ calls (range_entries consumerGroup lambdaName entries).1).
  { rewrite elem_of_calls. simpl. tauto. }
  rewrite range_entries_calls. rewrite !list_elem_of_In, List.in_flat_map.
  split.
  - intros (entry & Hentry & Hin). apply List.in_flat_map in Hin as (d & Hd & Hin).
    apply list_elem_of_In, elem_of_message_calls_ack in Hin as (-> & -> & -> & Hok).
    split; [reflexivity|]. exists entry, d.
    rewrite !list_elem_of_In. auto.
  - intros (-> & entry & d & Hentry & Hd & -> & -> & Hok).
    exists entry. split; [by apply list_elem_of_In|].
    apply List.in_flat_map. exists d. split; [by apply list_elem_of_In|].
    apply list_elem_of_In, elem_of_message_calls_ack. auto.
Qed.
End batch_traces.

(** ** Acknowledgment and invocation outcome *)

Lemma lambda_Invoke_from_client (unmarshalError : Z → string → string)
    (o : http_outcome) :
  from_client (lambda_Invoke unmarshalError o) = true.
Proof.
  destruct o as [err|status body]; simpl; [reflexivity|].
  destruct (success_status status) eqn:Hstatus; simpl; done.
Qed.

Lemma from_client_success (r : invoke_reply) :
  from_client r = true →
  returned_success_status r = returned_no_error r.
Proof. destruct r as [err|result]; simpl; [done|]. by intros ->. Qed.

(** C1: over a batch whose invocation replies are replies of the
    client (a result comes with a success status only, a failure status
    comes as an error), an acknowledgment call for (stream, group, id)
    is issued exactly when a message with that id in that stream entry
    had its invocation succeed: no call error and a success status.  The
    client gives such replies whatever the service does.  On a failure,
    be it a call error or a response with a failure status, the events of
    the message are the line announcing it, the invocation and the line
    logging the error: no acknowledgment, the message stays pending. *)
Theorem ack_iff_invocation_succeeded
    (consumerGroup lambdaName : string) (entries : list XStream) :
  Forall (λ d, from_client (invoke_result d) = true) (batch_deliveries entries) →
  (∀ s g i : string,
     EvXAck s g i ∈ (range_entries consumerGroup lambdaName entries).1
     ↔ g = consumerGroup ∧
       ∃ entry d, entry ∈ entries ∧ d ∈ Messages entry ∧
                  s = Stream entry ∧ i = ID (message d) ∧
                  returned_success_status (invoke_result d) = true)
  ∧ (∀ unmarshalError o, from_client (lambda_Invoke unmarshalError o) = true)
  ∧ (∀ (stream : string) (msg : XMessage) (err : string) (ack : error),
       process_message consumerGroup lambdaName stream
         (mkDelivery msg (InvokeErr err) ack)
       = ([EvPrintf "Processing message ID: %s from stream: %s"
             [AStr (ID msg); AStr stream];
           EvInvoke lambdaName (payload_of msg);
           EvPrintf "Error invoking Lambda: %v" [AStr err]],
          inr tt))
  ∧ (∀ unmarshalError (stream : string) (msg : XMessage) (status : Z)
       (body : string) (ack : error),
       success_status status = false →
       process_message consumerGroup lambdaName stream
         (mkDelivery msg (lambda_Invoke unmarshalError (Response status body)) ack)
       = ([EvPrintf "Processing message ID: %s from stream: %s"
             [AStr (ID msg); AStr stream];
           EvInvoke lambdaName (payload_of msg);
           EvPrintf "Error invoking Lambda: %v"
             [AStr (unmarshalError status body)]],
          inr tt)).
Proof.
  intros Hclient. split; [|split; [apply lambda_Invoke_from_client|split]].
  - intros s g i. rewrite elem_of_range_entries_ack.
    assert (Hsame : ∀ entry d, entry ∈ entries → d ∈ Messages entry →
              returned_success_status (invoke_result d)
              = returned_no_error (invoke_result d)).
    { intros entry d Hentry Hd. apply from_client_success.
      rewrite Forall_forall in Hclient. apply Hclient.
      unfold batch_deliveries. apply list_elem_of_In, List.in_flat_map.
      exists entry. by rewrite <- !list_elem_of_In. }
    split.
    + intros (-> & entry & d & Hentry & Hd & ? & ? & result & Hok).
      split; [reflexivity|]. exists entry, d.
      rewrite (Hsame entry d Hentry Hd), Hok. auto.
    + intros (-> & entry & d & Hentry & Hd & ? & ? & Hok).
      split; [reflexivity|]. exists entry, d.
      rewrite (Hsame entry d Hentry Hd) in Hok.
      destruct (invoke_result d) as [err|result]; [discriminate|]. eauto 10.
  - reflexivity.
  - intros unmarshalError stream msg status body ack Hstatus.
    unfold lambda_Invoke. rewrite Hstatus. reflexivity.
Qed.

Lemma ack_iff_invocation_succeeded_witness :
  Forall (λ d, from_client (invoke_result d) = true)
    (batch_deliveries batch_one_ok_one_failed)
  ∧ (EvXAck "orders" "g1" "1-0" ∈ (range_entries "g1" "fn" batch_one_ok_one_failed).1)
  ∧ ¬ (EvXAck "orders" "g1" "2-0" ∈ (range_entries "g1" "fn" batch_one_ok_one_failed).1).
Proof.
  assert (Hclient : Forall (λ d, from_client (invoke_result d) = true)
                      (batch_deliveries batch_one_ok_one_failed))
    by (repeat constructor).
  split; [exact Hclient|].
  destruct (ack_iff_invocation_succeeded "g1" "fn" batch_one_ok_one_failed Hclient)
    as (Hiff & _).
  split.
  - apply Hiff. split; [reflexivity|].
    eexists _, _. split; [apply list_elem_of_here|].
    split; [apply list_elem_of_here|]. repeat split; reflexivity.
  - intros Hack. apply Hiff in Hack as (_ & entry & d & Hentry & Hd & _ & Hid & Hok).
    apply list_elem_of_singleton in Hentry as ->.
    simpl in Hd. apply elem_of_cons in Hd as [->|Hd]; [discriminate|].
    apply list_elem_of_singleton in Hd as ->. discriminate.
Defined.

(** ** Order of dispatch within a batch *)

(** C8: the events of a batch are the events of its messages laid end
    to end, entry by entry and message by message in the order the read
    returned them; so the calls made are, for each message in that
    order, its invocation followed at once by its acknowledgment when
    one is issued, ahead of the invocation of the next message. *)
Theorem batch_dispatched_in_returned_order
    (consumerGroup lambdaName : string) (entries : list XStream) :
  (range_entries consumerGroup lambdaName entries).1
  = flat_map (λ entry,
      flat_map (λ d, (process_message consumerGroup lambdaName (Stream entry) d).1)
               (Messages entry)) entries
  ∧ calls (range_entries consumerGroup lambdaName entries).1
    = flat_map (λ entry,
        flat_map (λ d,
          EvInvoke lambdaName (payload_of (message d)) ::
          (if returned_no_error (invoke_result d)
           then [EvXAck (Stream entry) consumerGroup (ID (message d))]
           else []))
          (Messages entry)) entries.
Proof.
  split; [apply range_entries_events|].
  rewrite range_entries_calls.
  induction entries as [|entry rest IH]; cbn [flat_map]; [reflexivity|].
  rewrite IH. f_equal.
  induction (Messages entry) as [|d ms IHms]; cbn [flat_map]; [reflexivity|].
  rewrite IHms. f_equal.
  unfold message_calls. destruct (invoke_result d); reflexivity.
Qed.

(** ** Errors of the acknowledgment *)

(** C4, evaluated where the invocation succeeds and the acknowledgment
    call fails with [err]: the events of the message do not depend on
    [err]; the call is followed by the line saying the message was
    acknowledged, and no line reports the failure. *)
Theorem xack_error_not_logged
    (consumerGroup lambdaName stream : string) (msg : XMessage)
    (result : InvokeOutput) (err : string) :
  process_message consumerGroup lambdaName stream
    (mkDelivery msg (InvokeOk result) (Some err))
  = ([EvPrintf "Processing message ID: %s from stream: %s"
        [AStr (ID msg); AStr stream];
      EvInvoke lambdaName (payload_of msg);
      EvPrintf "Lambda invoked successfully. StatusCode: %d, Payload: %s"
        [AInt (StatusCode result); AStr (Payload result)];
      EvXAck stream consumerGroup (ID msg);
      EvPrintf "Message ID %s acknowledged in consumer group %s"
        [AStr (ID msg); AStr consumerGroup]],
     inr tt).
Proof. reflexivity. Qed.

(** ** Failures of the read *)

Lemma iteration_returns streamList consumerGroup lambdaName reply :
  (iteration streamList consumerGroup lambdaName reply).2 = inr tt.
Proof.
  destruct reply as [err|entries]; [reflexivity|].
  unfold iteration. cbn [mbind proc_bind emit snd fst].
  apply range_entries_returns.
Qed.

#[local] Hint Resolve iteration_returns : returns.

Lemma consume_never_returns streamList consumerGroup lambdaName replies :
  (consume streamList consumerGroup lambdaName replies).2 = inl Blocked.
Proof.
  induction replies as [|reply later IH]; cbn [consume]; [reflexivity|].
  run_head.
  exact IH.
Qed.

Lemma consume_cons streamList consumerGroup lambdaName reply later :
  consume streamList consumerGroup lambdaName (reply :: later)
  = ((iteration streamList consumerGroup lambdaName reply).1
       ++ (consume streamList consumerGroup lambdaName later).1,
     inl Blocked).
Proof.
  cbn [consume]. run_head.
  f_equal. apply consume_never_returns.
Qed.

(** C7: a failed read produces the read call and one log line, nothing
    else (no acknowledgment), and the next event is the read of the next
    iteration; this holds for any number of failures in a row, and
    whatever the answers the loop never stops: the process is left
    waiting in a read. *)
Theorem read_failure_logged_and_retried
    (streamList : list string) (consumerGroup lambdaName : string) :
  (∀ err : string,
     iteration streamList consumerGroup lambdaName (ReadErr err)
     = ([EvXReadGroup (read_args streamList consumerGroup);
         EvPrintf "Error reading from Redis stream: %v" [AStr err]],
        inr tt))
  ∧ (∀ (errs : list string) (later : list read_reply),
       (consume streamList consumerGroup lambdaName (map ReadErr errs ++ later)).1
       = flat_map (λ err, [EvXReadGroup (read_args streamList consumerGroup);
                           EvPrintf "Error reading from Redis stream: %v" [AStr err]])
           errs
         ++ (consume streamList consumerGroup lambdaName later).1)
  ∧ (∀ replies : list read_reply,
       (consume streamList consumerGroup lambdaName replies).2 = inl Blocked
       ∧ ∃ before, (consume streamList consumerGroup lambdaName replies).1
                   = before ++ [EvXReadGroup (read_args streamList consumerGroup)]).
Proof.
  split; [reflexivity|]. split.
  - intros errs later. induction errs as [|err errs IH]; [reflexivity|].
    cbn [map app flat_map]. rewrite consume_cons. cbn [fst].
    rewrite IH. reflexivity.
  - intros replies. split; [apply consume_never_returns|].
    induction replies as [|reply later [before IH]].
    + exists []. reflexivity.
    + rewrite consume_cons. cbn [fst]. rewrite IH.
      eexists. rewrite app_assoc. reflexivity.
Qed.

(** ** Startup *)

Lemma ensure_tolerated reply stream consumerGroup :
  tolerated reply →
  (ensureConsumerGroupExists reply stream consumerGroup).2 = inr tt
  ∧ calls (ensureConsumerGroupExists reply stream consumerGroup).1
    = [create_call consumerGroup stream].
Proof.
  destruct reply as [err|]; simpl; [|split; reflexivity].
  intros Hbusy. unfold ensureConsumerGroupExists. rewrite Hbusy.
  split; reflexivity.
Qed.

Lemma ensure_fatal err stream consumerGroup :
  strings.Contains err BUSYGROUP = false →
  ensureConsumerGroupExists (Some err) stream consumerGroup
  = ([create_call consumerGroup stream;
      EvFatalf "Error creating consumer group: %v" [AStr err]],
     inl (Exited 1)).
Proof.
  intros Hother. unfold ensureConsumerGroupExists. rewrite Hother. reflexivity.
Qed.

Lemma ensure_each_tolerated w consumerGroup streamList k :
  (∀ i, (i < length streamList)%nat → tolerated (XGroupCreateMkStream_err w (k + i))) →
  (ensure_each w k streamList consumerGroup).2 = inr tt
  ∧ calls (ensure_each w k streamList consumerGroup).1
    = map (create_call consumerGroup) streamList.
Proof.
  revert k. induction streamList as [|stream rest IH]; intros k Hall;
    cbn [ensure_each]; [split; reflexivity|].
  destruct (ensure_tolerated (XGroupCreateMkStream_err w k) stream consumerGroup)
    as [Hret Hcalls].
  { rewrite <- (Nat.add_0_r k). apply Hall. simpl. lia. }
  rewrite (bind_returns _ _ tt) by exact Hret.
  destruct (IH (S k)) as [IHret IHcalls].
  { intros i Hi. replace (S k + i)%nat with (k + S i)%nat by lia.
    apply Hall. simpl. lia. }
  cbn [fst snd]. split; [exact IHret|].
  rewrite calls_app, Hcalls, IHcalls. reflexivity.
Qed.

Lemma ensure_each_fatal w consumerGroup streamList k j stream err :
  streamList !! j = Some stream →
  (∀ i, (i < j)%nat → tolerated (XGroupCreateMkStream_err w (k + i))) →
  XGroupCreateMkStream_err w (k + j) = Some err →
  strings.Contains err BUSYGROUP = false →
  (ensure_each w k streamList consumerGroup).2 = inl (Exited 1)
  ∧ last (ensure_each w k streamList consumerGroup).1
    = Some (EvFatalf "Error creating consumer group: %v" [AStr err])
  ∧ calls (ensure_each w k streamList consumerGroup).1
    = map (create_call consumerGroup) (take (S j) streamList).
Proof.
  revert k j. induction streamList as [|s rest IH]; intros k j Hj Hbefore Herr Hother;
    [discriminate|].
  cbn [ensure_each]. destruct j as [|j].
  - injection Hj as ->. rewrite Nat.add_0_r in Herr. rewrite Herr.
    rewrite (bind_stops _ _ (Exited 1)) by (rewrite ensure_fatal by done; done).
    rewrite ensure_fatal by done. cbn [fst snd]. repeat split; reflexivity.
  - destruct (ensure_tolerated (XGroupCreateMkStream_err w k) s consumerGroup)
      as [Hret Hcalls].
    { rewrite <- (Nat.add_0_r k). apply Hbefore. lia. }
    rewrite (bind_returns _ _ tt) by exact Hret.
    destruct (IH (S k) j) as (IHstop & IHlast & IHcalls); [done| | |done|].
    { intros i Hi. replace (S k + i)%nat with (k + S i)%nat by lia.
      apply Hbefore. lia. }
    { replace (S k + j)%nat with (k + S j)%nat by lia. exact Herr. }
    cbn [fst snd]. split; [exact IHstop|]. split.
    + destruct ((ensure_each w (S k) rest consumerGroup).1) as [|e t] eqn:Ht;
        [discriminate|].
      rewrite last_app. rewrite IHlast. reflexivity.
    + rewrite calls_app, Hcalls, IHcalls. reflexivity.
Qed.

Lemma main_parsed env w :
  ParseURL_err w (REDIS_URL env) = None → main env w = after_client env w.
Proof.
  intros Hurl. unfold main, initializeRedisClient. rewrite Hurl.
  cbv zeta. rewrite ret_bind. reflexivity.
Qed.

Lemma main_started env w :
  ParseURL_err w (REDIS_URL env) = None →
  (∀ k, tolerated (XGroupCreateMkStream_err w k)) →
  NewSession_err w = None →
  (main env w).2 = inl Blocked
  ∧ calls (main env w).1
    = map (create_call (CONSUMER_GROUP env)) (splitStreams (REDIS_STREAMS env))
      ++ calls (consume (splitStreams (REDIS_STREAMS env)) (CONSUMER_GROUP env)
                  (LAMBDA_NAME env) (XReadGroup_replies w)).1.
Proof.
  intros Hurl Hall Hsess. rewrite main_parsed by done. unfold after_client.
  destruct (ensure_each_tolerated w (CONSUMER_GROUP env)
              (splitStreams (REDIS_STREAMS env)) 0) as [Hret Hcalls].
  { intros i _. apply Hall. }
  rewrite (bind_returns _ _ tt) by exact Hret.
  unfold session_Must. rewrite Hsess, ret_bind. cbn [fst snd].
  split; [apply consume_never_returns|].
  rewrite calls_app, Hcalls. reflexivity.
Qed.

(** ** Group initialization *)

(** C5: when the creation fails with the error by which the store
    reports an existing group, the initializer logs the informational
    line and returns; so a creation that went through or was tolerated,
    followed by a second one on the same stream and group answered with
    that error, returns as well, and a startup in which every creation is
    answered that way goes on into the dispatch loop. *)
Theorem group_creation_idempotent
    (stream consumerGroup : string) (first : error) (err : string) :
  tolerated first →
  strings.Contains err BUSYGROUP = true →
  ensureConsumerGroupExists (Some err) stream consumerGroup
  = ([EvXGroupCreateMkStream stream consumerGroup "$";
      EvPrintf "Consumer group %s already exists for stream %s, skipping creation."
        [AStr consumerGroup; AStr stream]],
     inr tt)
  ∧ (ensureConsumerGroupExists first stream consumerGroup;;
     ensureConsumerGroupExists (Some err) stream consumerGroup).2 = inr tt
  ∧ (∀ env w,
       ParseURL_err w (REDIS_URL env) = None →
       (∀ k, tolerated (XGroupCreateMkStream_err w k)) →
       NewSession_err w = None →
       (main env w).2 = inl Blocked
       ∧ EvXReadGroup (read_args (splitStreams (REDIS_STREAMS env)) (CONSUMER_GROUP env))
           ∈ (main env w).1).
Proof.
  intros Hfirst Hbusy. split; [|split].
  - unfold ensureConsumerGroupExists. rewrite Hbusy. reflexivity.
  - destruct (ensure_tolerated first stream consumerGroup Hfirst) as [Hret _].
    rewrite (bind_returns _ _ tt) by exact Hret. cbn [snd].
    apply (ensure_tolerated (Some err)). exact Hbusy.
  - intros env w Hurl Hall Hsess.
    destruct (main_started env w Hurl Hall Hsess) as [Hstop Hcalls].
    split; [exact Hstop|].
    enough (Hin : EvXReadGroup (read_args (splitStreams (REDIS_STREAMS env))
                                  (CONSUMER_GROUP env)) ∈ calls (main env w).1)
      by (apply elem_of_calls in Hin; tauto).
    rewrite Hcalls, elem_of_app. right. apply elem_of_calls. split; [|reflexivity].
    destruct (XReadGroup_replies w) as [|reply later].
    + apply list_elem_of_here.
    + rewrite consume_cons. cbn [fst]. rewrite elem_of_app. left.
      destruct reply; apply list_elem_of_here.
Qed.

Lemma group_creation_idempotent_witness :
  tolerated None ∧ strings.Contains BUSYGROUP BUSYGROUP = true
  ∧ (ensureConsumerGroupExists None "orders" "g1";;
     ensureConsumerGroupExists (Some BUSYGROUP) "orders" "g1").2 = inr tt.
Proof.
  split; [exact I|]. split; [reflexivity|].
  apply (group_creation_idempotent "orders" "g1" None BUSYGROUP); [exact I|reflexivity].
Defined.

(** C6, evaluated where the creation fails for another reason and the
    error text happens to hold the BUSYGROUP phrase: the group is named
    by the phrase and the store answers that it does not know the
    command, repeating its arguments.  The failure is not fatal: the
    initializer logs that the group already exists and returns, and the
    process goes on to read. *)
Theorem foreign_failure_holding_phrase_not_fatal :
  strings.Contains unknown_command BUSYGROUP = true
  ∧ main env_phrase world_unknown_command
    = ([EvXGroupCreateMkStream "orders" BUSYGROUP "$";
        EvPrintf "Consumer group %s already exists for stream %s, skipping creation."
          [AStr BUSYGROUP; AStr "orders"];
        EvXReadGroup (read_args ["orders"] BUSYGROUP)],
       inl Blocked).
Proof. split; vm_compute; reflexivity. Qed.

(** X14: when the creation for a configured stream is answered with an
    error whose text does not hold the BUSYGROUP phrase, the creations
    before it having gone through, the process exits with status 1; its
    last event is the fatal log line carrying the cause, and its only
    calls are the creations up to and including the failed one: that one
    is not retried, no later stream is initialized, and no read,
    invocation or acknowledgment is issued. *)
Theorem other_creation_failure_is_fatal
    (env : Environ) (w : World) (j : nat) (stream err : string) :
  ParseURL_err w (REDIS_URL env) = None →
  splitStreams (REDIS_STREAMS env) !! j = Some stream →
  (∀ i, (i < j)%nat → tolerated (XGroupCreateMkStream_err w i)) →
  XGroupCreateMkStream_err w j = Some err →
  strings.Contains err BUSYGROUP = false →
  (main env w).2 = inl (Exited 1)
  ∧ last (main env w).1
    = Some (EvFatalf "Error creating consumer group: %v" [AStr err])
  ∧ calls (main env w).1
    = map (λ s, EvXGroupCreateMkStream s (CONSUMER_GROUP env) "$")
        (take (S j) (splitStreams (REDIS_STREAMS env)))
  ∧ ∀ a, EvXReadGroup a ∉ (main env w).1.
Proof.
  intros Hurl Hj Hbefore Herr Hother.
  rewrite main_parsed by done. unfold after_client.
  destruct (ensure_each_fatal w (CONSUMER_GROUP env) _ 0 j stream err Hj)
    as (Hstop & Hlast & Hcalls); [done..|].
  rewrite (bind_stops _ _ (Exited 1)) by exact Hstop. cbn [fst snd].
  split; [reflexivity|]. split; [exact Hlast|]. split; [exact Hcalls|].
  intros a Hin.
  assert (Hc : EvXReadGroup a ∈ calls
             (ensure_each w 0 (splitStreams (REDIS_STREAMS env)) (CONSUMER_GROUP env)).1)
    by (apply elem_of_calls; done).
  rewrite Hcalls in Hc. apply list_elem_of_fmap in Hc as (s & Heq & _).
  discriminate.
Qed.

Lemma other_creation_failure_is_fatal_witness :
  let w := mkWorld (λ _, None)
             (λ k, match k with 1%nat => Some "NOPERM no permissions" | _ => None end)
             None [] in
  (main env_orders w).2 = inl (Exited 1)
  ∧ calls (main env_orders w).1
    = [EvXGroupCreateMkStream "orders" "g1" "$";
       EvXGroupCreateMkStream "payments" "g1" "$"].
Proof.
  intros w.
  destruct (other_creation_failure_is_fatal env_orders w 1 "payments"
              "NOPERM no permissions") as (Hstop & _ & Hcalls & _);
    [reflexivity|reflexivity| |reflexivity|reflexivity|].
  - intros i Hi. replace i with 0%nat by lia. exact I.
  - split; [exact Hstop|exact Hcalls].
Defined.

(** ** Configuration *)

(** C9: an empty stream list configuration splits into the one stream
    whose name is empty; once the URL has parsed the first event of the
    process is the group creation on that stream, and when startup goes
    through, the calls begin with that creation followed by a read on
    the empty-named stream. *)
Theorem empty_configuration_is_one_empty_stream (env : Environ) (w : World) :
  REDIS_STREAMS env = EmptyString →
  ParseURL_err w (REDIS_URL env) = None →
  splitStreams (REDIS_STREAMS env) = [EmptyString]
  ∧ (∃ rest, (main env w).1
             = EvXGroupCreateMkStream EmptyString (CONSUMER_GROUP env) "$" :: rest)
  ∧ (tolerated (XGroupCreateMkStream_err w 0) →
     NewSession_err w = None →
     ∃ rest, calls (main env w).1
             = EvXGroupCreateMkStream EmptyString (CONSUMER_GROUP env) "$"
               :: EvXReadGroup {| Group := CONSUMER_GROUP env;
                                  Consumer := "consumer-1";
                                  Streams := [EmptyString; ">"];
                                  Count := 10; Block := 0; NoAck := false |}
               :: rest).
Proof.
  intros Hempty Hurl. rewrite main_parsed by done. unfold after_client.
  rewrite Hempty. change (splitStreams EmptyString) with [EmptyString].
  split; [reflexivity|]. split.
  - cbn [ensure_each]. unfold ensureConsumerGroupExists.
    destruct (XGroupCreateMkStream_err w 0) as [err|];
      [destruct (strings.Contains err BUSYGROUP)|]; eexists; reflexivity.
  - intros Hok Hsess.
    destruct (ensure_each_tolerated w (CONSUMER_GROUP env) [EmptyString] 0)
      as [Hret Hcalls].
    { intros i Hi. simpl in Hi. replace i with 0%nat by lia. exact Hok. }
    rewrite (bind_returns _ _ tt) by exact Hret.
    unfold session_Must. rewrite Hsess, ret_bind.
    cbn [fst]. rewrite calls_app, Hcalls.
    destruct (XReadGroup_replies w) as [|reply later].
    + exists []. reflexivity.
    + rewrite consume_cons. cbn [fst]. rewrite calls_app.
      destruct reply; eexists; reflexivity.
Qed.

Lemma empty_configuration_is_one_empty_stream_witness :
  REDIS_STREAMS env_empty = EmptyString
  ∧ ParseURL_err quiet_world (REDIS_URL env_empty) = None
  ∧ splitStreams (REDIS_STREAMS env_empty) = [EmptyString]
  ∧ ∃ rest, (main env_empty quiet_world).1
            = EvXGroupCreateMkStream EmptyString "g1" "$" :: rest.
Proof.
  split; [reflexivity|]. split; [reflexivity|].
  destruct (empty_configuration_is_one_empty_stream env_empty quiet_world)
    as (Hsplit & Hfirst & _); [reflexivity|reflexivity|].
  split; [exact Hsplit|exact Hfirst].
Defined.

(** C10: when the URL does not parse, the whole run is the fatal log
    line followed by exit with status 1; no call reaches the store. *)
Theorem malformed_url_stops_before_store (env : Environ) (w : World) (err : string) :
  ParseURL_err w (REDIS_URL env) = Some err →
  main env w = ([EvFatalf "Failed to parse Redis URL: %v" [AStr err]], inl (Exited 1))
  ∧ calls (main env w).1 = [].
Proof.
  intros Hurl. unfold main, initializeRedisClient. rewrite Hurl.
  split; reflexivity.
Qed.

Lemma malformed_url_stops_before_store_witness :
  let w := mkWorld (λ _, Some "redis: invalid URL scheme: http") (λ _, None) None [] in
  ParseURL_err w (REDIS_URL env_orders) = Some "redis: invalid URL scheme: http"
  ∧ calls (main env_orders w).1 = [].
Proof.
  intros w. split; [reflexivity|].
  apply (malformed_url_stops_before_store env_orders w "redis: invalid URL scheme: http").
  reflexivity.
Defined.

(** ** The read call *)

(** C2, evaluated on the stream list [orders,payments]: the read names
    both streams under the group, the fixed consumer, count 10 and
    block 0, but carries one [>] cursor for the two streams. *)
Theorem one_cursor_for_two_streams :
  splitStreams "orders,payments" = ["orders"; "payments"]
  ∧ calls (main env_orders quiet_world).1
    = [EvXGroupCreateMkStream "orders" "g1" "$";
       EvXGroupCreateMkStream "payments" "g1" "$";
       EvXReadGroup {| Group := "g1"; Consumer := "consumer-1";
                       Streams := ["orders"; "payments"; ">"];
                       Count := 10; Block := 0; NoAck := false |}]
  ∧ length (List.filter (String.eqb ">")
              (Streams (read_args (splitStreams "orders,payments") "g1"))) = 1%nat.
Proof. repeat split; reflexivity. Qed.

(** ** The payload *)

(** C3, evaluated on two messages: one has the single field [a] with
    value [b c:d], the other the fields [a] and [c]; their field maps
    differ and their payloads are the same string, so the fields cannot
    be recovered from the payload. *)
Theorem payload_not_faithful :
  Values msg_one_field ≠ Values msg_two_fields
  ∧ payload_of msg_one_field = payload_of msg_two_fields
  ∧ payload_of msg_one_field
    = "{" +:+ dquote +:+ "message" +:+ dquote +:+ ": " +:+ dquote
          +:+ "map[a:b c:d]" +:+ dquote +:+ "}".
Proof.
  split; [|split; vm_compute; reflexivity].
  intros Heq. apply (f_equal (λ m : gmap string string, m !! "c")) in Heq.
  vm_compute in Heq. discriminate.
Qed.

(** ** The stream list *)

Section split.
Variable sep : ascii.

Lemma Split_nonempty (s : string) : strings.Split s sep ≠ [].
Proof.
  destruct s as [|c rest]; simpl; [discriminate|].
  destruct (Ascii.eqb c sep); [discriminate|].
  destruct (strings.Split rest sep); discriminate.
Qed.

Lemma Join_cons_nonempty (e : string) (l : list string) (glue : string) :
  l ≠ [] → strings.Join (e :: l) glue = e +:+ glue +:+ strings.Join l glue.
Proof. destruct l; [congruence|reflexivity]. Qed.

Lemma Join_push (a : ascii) (h : string) (t : list string) (glue : string) :
  strings.Join (String a h :: t) glue = String a (strings.Join (h :: t) glue).
Proof. destruct t; reflexivity. Qed.

Lemma Join_Split (s : string) :
  strings.Join (strings.Split s sep) (String sep EmptyString) = s.
Proof.
  induction s as [|c rest IH]; simpl; [reflexivity|].
  destruct (Ascii.eqb_spec c sep) as [->|Hne].
  - rewrite Join_cons_nonempty by apply Split_nonempty. simpl. by rewrite IH.
  - destruct (strings.Split rest sep) as [|h t] eqn:Hsplit.
    + by destruct (Split_nonempty rest).
    + rewrite Join_push, IH. reflexivity.
Qed.

Lemma Split_length (s : string) :
  length (strings.Split s sep) = S (count_byte sep s).
Proof.
  induction s as [|c rest IH]; simpl; [reflexivity|].
  destruct (Ascii.eqb c sep); simpl; [by rewrite IH|].
  destruct (strings.Split rest sep) as [|h t]; simpl in *; lia.
Qed.

Lemma Split_pieces_free (s : string) :
  Forall (λ piece, count_byte sep piece = 0%nat) (strings.Split s sep).
Proof.
  induction s as [|c rest IH]; simpl; [by repeat constructor|].
  destruct (Ascii.eqb c sep) eqn:Hc; [by constructor|].
  destruct (strings.Split rest sep) as [|h t]; simpl.
  - repeat constructor. simpl. by rewrite Hc.
  - inversion IH; subst. constructor; [|done]. simpl. by rewrite Hc.
Qed.

Lemma Split_app (s1 s2 : string) :
  strings.Split (s1 +:+ String sep s2) sep
  = strings.Split s1 sep ++ strings.Split s2 sep.
Proof.
  induction s1 as [|c rest IH]; simpl.
  - by rewrite Ascii.eqb_refl.
  - rewrite IH. destruct (Ascii.eqb c sep); [reflexivity|].
    destruct (strings.Split rest sep) as [|h t] eqn:Hsplit; [|reflexivity].
    by destruct (Split_nonempty rest).
Qed.

Lemma Split_free (s : string) :
  count_byte sep s = 0%nat → strings.Split s sep = [s].
Proof.
  induction s as [|c rest IH]; simpl; [reflexivity|].
  destruct (Ascii.eqb c sep); [discriminate|]. simpl.
  intros Hfree. by rewrite IH.
Qed.

Lemma Split_Join (l : list string) :
  l ≠ [] → Forall (λ piece, count_byte sep piece = 0%nat) l →
  strings.Split (strings.Join l (String sep EmptyString)) sep = l.
Proof.
  induction l as [|e rest IH]; [congruence|]. intros _ Hfree.
  inversion Hfree as [|? ? He Hrest]; subst.
  destruct rest as [|e' rest'].
  - simpl. by apply Split_free.
  - rewrite Join_cons_nonempty by discriminate.
    change (String sep EmptyString +:+ ?x) with (String sep x).
    rewrite Split_app, Split_free by done.
    rewrite IH by done. reflexivity.
Qed.
End split.

(** X1: joining the stream list with commas gives back the configured
    string: splitting loses and adds no byte. *)
Theorem splitStreams_join (streams : string) :
  strings.Join (splitStreams streams) "," = streams.
Proof. apply Join_Split. Qed.

(** X2: the stream list has one name more than the configured string
    has commas (so it is never empty), and no name holds a comma. *)
Theorem splitStreams_length (streams : string) :
  length (splitStreams streams) = S (count_byte comma streams)
  ∧ splitStreams streams ≠ []
  ∧ Forall (λ name, count_byte comma name = 0%nat) (splitStreams streams).
Proof.
  split; [apply Split_length|]. split; [apply Split_nonempty|].
  apply Split_pieces_free.
Qed.

(** X3: a non-empty list of names free of commas, joined with commas,
    splits back into the same list; names are taken as they are, empty
    ones and ones with blanks included. *)
Theorem splitStreams_of_join (names : list string) :
  names ≠ [] →
  Forall (λ name, count_byte comma name = 0%nat) names →
  splitStreams (strings.Join names ",") = names.
Proof. apply Split_Join. Qed.

Lemma splitStreams_of_join_witness :
  splitStreams (strings.Join ["orders"; " payments"; EmptyString] ",")
  = ["orders"; " payments"; EmptyString].
Proof.
  apply (splitStreams_of_join ["orders"; " payments"; EmptyString]);
    [discriminate|].
  repeat constructor.
Defined.

(** X4: a comma between two configured strings puts their stream lists
    one after the other; a trailing comma therefore adds a stream with
    the empty name. *)
Theorem splitStreams_comma (s1 s2 : string) :
  splitStreams (s1 +:+ "," +:+ s2) = splitStreams s1 ++ splitStreams s2.
Proof. apply (Split_app comma). Qed.

(** ** The already-exists test *)

Lemma append_cons (a : ascii) (s t : string) :
  String a s +:+ t = String a (s +:+ t).
Proof. reflexivity. Qed.

Lemma prefix_spec (s1 s2 : string) :
  String.prefix s1 s2 = true ↔ ∃ post, s2 = s1 +:+ post.
Proof.
  revert s2. induction s1 as [|a s1 IH]; intros [|b s2]; simpl.
  - split; [by exists EmptyString|done].
  - split; [by eexists|done].
  - split; [discriminate|]. intros [post Hpost]. discriminate.
  - destruct (ascii_dec a b) as [->|Hne].
    + rewrite IH. split; intros [post Hpost]; exists post;
        rewrite append_cons in *; congruence.
    + split; [discriminate|]. intros [post Hpost].
      rewrite append_cons in Hpost. congruence.
Qed.

Lemma Contains_spec (s substr : string) :
  strings.Contains s substr = true ↔ ∃ pre post, s = pre +:+ substr +:+ post.
Proof.
  induction s as [|c rest IH]; cbn [strings.Contains].
  - rewrite orb_false_r, prefix_spec. split.
    + intros [post Hpost]. by exists EmptyString, post.
    + intros (pre & post & Heq). destruct pre; [by exists post|discriminate].
  - rewrite orb_true_iff, prefix_spec, IH. split.
    + intros [[post Hpost]|(pre & post & Heq)].
      * by exists EmptyString, post.
      * exists (String c pre), post. rewrite append_cons. by rewrite Heq.
    + intros (pre & post & Heq). destruct pre as [|a pre].
      * left. by exists post.
      * right. exists pre, post. rewrite append_cons in Heq. congruence.
Qed.

(** X5: the initializer ends the process exactly when the creation
    failed with an error whose text does not hold the BUSYGROUP phrase
    anywhere; in every other case it returns.  The test is a substring
    test: the phrase may stand behind any prefix and before any suffix. *)
Theorem ensureConsumerGroupExists_exits_iff
    (reply : error) (stream consumerGroup : string) :
  ((ensureConsumerGroupExists reply stream consumerGroup).2 = inl (Exited 1)
   ↔ ∃ err, reply = Some err
            ∧ ¬ ∃ pre post, err = pre +:+ BUSYGROUP +:+ post)
  ∧ ((ensureConsumerGroupExists reply stream consumerGroup).2 = inr tt
     ∨ (ensureConsumerGroupExists reply stream consumerGroup).2 = inl (Exited 1)).
Proof.
  unfold ensureConsumerGroupExists. destruct reply as [err|].
  - destruct (strings.Contains err BUSYGROUP) eqn:Hc; simpl.
    + split; [|by left]. split; [discriminate|].
      intros (err' & [= <-] & Hno). destruct Hno. by apply Contains_spec.
    + split; [|by right]. split; [|done].
      intros _. exists err. split; [done|].
      intros Hsub%Contains_spec. congruence.
  - simpl. split; [|by left]. split; [discriminate|].
    intros (err & Heq & _). discriminate.
Qed.

(** ** How a run ends *)

Lemma tolerated_dec (reply : error) : {tolerated reply} + {¬ tolerated reply}.
Proof.
  destruct reply as [err|]; simpl; [|by left].
  destruct (strings.Contains err BUSYGROUP); [by left|by right].
Defined.

Lemma ensure_not_tolerated reply stream consumerGroup :
  ¬ tolerated reply →
  (ensureConsumerGroupExists reply stream consumerGroup).2 = inl (Exited 1).
Proof.
  destruct reply as [err|]; unfold tolerated; [|tauto].
  intros Hno. rewrite ensure_fatal; [done|].
  by destruct (strings.Contains err BUSYGROUP).
Qed.

Lemma ensure_each_outcome w consumerGroup streamList k :
  ((ensure_each w k streamList consumerGroup).2 = inr tt
   ↔ ∀ i, (i < length streamList)%nat → tolerated (XGroupCreateMkStream_err w (k + i)))
  ∧ ((ensure_each w k streamList consumerGroup).2 = inr tt
     ∨ (ensure_each w k streamList consumerGroup).2 = inl (Exited 1)).
Proof.
  revert k. induction streamList as [|stream rest IH]; intros k.
  - simpl. split; [|by left]. split; [intros _ i Hi; lia|done].
  - cbn [ensure_each].
    destruct (tolerated_dec (XGroupCreateMkStream_err w k)) as [Hok|Hno].
    + destruct (ensure_tolerated _ stream consumerGroup Hok) as [Hret _].
      rewrite (bind_returns _ _ tt) by exact Hret. cbn [snd].
      destruct (IH (S k)) as [IHiff IHor]. split; [|exact IHor].
      rewrite IHiff. split.
      * intros Hall [|i] Hi; [by rewrite Nat.add_0_r|].
        replace (k + S i)%nat with (S k + i)%nat by lia. apply Hall. simpl in Hi. lia.
      * intros Hall i Hi. replace (S k + i)%nat with (k + S i)%nat by lia.
        apply Hall. simpl. lia.
    + rewrite (bind_stops _ _ (Exited 1)) by by apply ensure_not_tolerated.
      cbn [snd]. split; [|by right]. split; [discriminate|].
      intros Hall. destruct Hno. rewrite <- (Nat.add_0_r k). apply Hall. simpl. lia.
Qed.

Lemma elem_of_bind {A B} (m : proc A) (k : A → proc B) (e : event) :
  e ∈ (m ≫= k).1 ↔ e ∈ m.1 ∨ ∃ a, m.2 = inr a ∧ e ∈ (k a).1.
Proof.
  destruct m as [t [h|a]]; unfold mbind, proc_bind; simpl.
  - split; [by left|]. intros [?|(a & ? & _)]; [done|discriminate].
  - rewrite elem_of_app. split.
    + intros [?|?]; [by left|right; by exists a].
    + intros [?|(a' & [= <-] & ?)]; [by left|by right].
Qed.

Lemma ensure_no_read reply stream consumerGroup a :
  EvXReadGroup a ∉ (ensureConsumerGroupExists reply stream consumerGroup).1.
Proof.
  unfold ensureConsumerGroupExists.
  destruct reply as [err|]; [destruct (strings.Contains err BUSYGROUP)|];
    rewrite list_elem_of_In; simpl; intros [H|[H|[]]]; discriminate.
Qed.

Lemma ensure_each_no_read w consumerGroup streamList k a :
  EvXReadGroup a ∉ (ensure_each w k streamList consumerGroup).1.
Proof.
  revert k. induction streamList as [|stream rest IH]; intros k;
    cbn [ensure_each].
  - apply not_elem_of_nil.
  - rewrite elem_of_bind. intros [Hin|(_ & _ & Hin)].
    + by apply ensure_no_read in Hin.
    + by apply IH in Hin.
Qed.

(** X6: the process issues a read exactly when the URL parses, every
    creation made for the stream list is answered without error or with
    an error whose text holds the BUSYGROUP phrase, and the AWS session
    is set up without error.  A run that issues no read has ended at
    startup, in exit status 1 or in a panic. *)
Theorem main_reads_iff (env : Environ) (w : World) :
  ((∃ a, EvXReadGroup a ∈ (main env w).1)
   ↔ ParseURL_err w (REDIS_URL env) = None
     ∧ (∀ i, (i < length (splitStreams (REDIS_STREAMS env)))%nat →
             XGroupCreateMkStream_err w i = None
             ∨ ∃ err, XGroupCreateMkStream_err w i = Some err
                      ∧ strings.Contains err BUSYGROUP = true)
     ∧ NewSession_err w = None)
  ∧ ((∀ a, EvXReadGroup a ∉ (main env w).1) →
     (main env w).2 = inl (Exited 1)
     ∨ ∃ cause, (main env w).2 = inl (Panicked cause)).
Proof.
  assert (Hreading : ∀ reply, tolerated reply
            ↔ reply = None
              ∨ ∃ err, reply = Some err ∧ strings.Contains err BUSYGROUP = true).
  { intros [err|]; simpl; split; eauto.
    - intros [?|(err' & [= <-] & ?)]; done. }
  destruct (ParseURL_err w (REDIS_URL env)) as [err|] eqn:Hurl.
  - unfold main, initializeRedisClient. rewrite Hurl. simpl.
    split; [|by left]. split; [|intros (? & _); discriminate].
    intros [a Hin]. apply list_elem_of_singleton in Hin. discriminate.
  - rewrite main_parsed by done. unfold after_client.
    destruct (ensure_each_outcome w (CONSUMER_GROUP env)
                (splitStreams (REDIS_STREAMS env)) 0) as [Hiff [Hret|Hexit]].
    + rewrite (bind_returns _ _ tt) by exact Hret. cbn [fst snd].
      unfold session_Must. destruct (NewSession_err w) as [cause|].
      * rewrite (bind_stops _ _ (Panicked cause)) by done. cbn [fst snd].
        rewrite app_nil_r. split; [|right; by exists cause].
        split; [|intros (_ & _ & ?); discriminate].
        intros [a Hin]. by apply ensure_each_no_read in Hin.
      * rewrite ret_bind. split.
        -- split; [|].
           ++ intros _. split; [done|]. split; [|done].
              intros i Hi. apply Hreading. by apply Hiff.
           ++ intros _. exists (read_args (splitStreams (REDIS_STREAMS env))
                                  (CONSUMER_GROUP env)).
              rewrite elem_of_app. right.
              destruct (XReadGroup_replies w) as [|reply later].
              ** apply list_elem_of_here.
              ** rewrite consume_cons. cbn [fst]. rewrite elem_of_app. left.
                 destruct reply; apply list_elem_of_here.
        -- intros Hnone. exfalso.
           apply (Hnone (read_args (splitStreams (REDIS_STREAMS env))
                           (CONSUMER_GROUP env))).
           rewrite elem_of_app. right.
           destruct (XReadGroup_replies w) as [|reply later].
           ** apply list_elem_of_here.
           ** rewrite consume_cons. cbn [fst]. rewrite elem_of_app. left.
              destruct reply; apply list_elem_of_here.
    + rewrite (bind_stops _ _ (Exited 1)) by exact Hexit. cbn [fst snd].
      split; [|by left]. split.
      * intros [a Hin]. by apply ensure_each_no_read in Hin.
      * intros (_ & Hall & _).
        assert (Hok : ∀ i, (i < length (splitStreams (REDIS_STREAMS env)))%nat →
                  tolerated (XGroupCreateMkStream_err w (0 + i)))
          by (intros i Hi; apply Hreading, Hall, Hi).
        apply Hiff in Hok. congruence.
Qed.

(** X7: when the session of the compute client cannot be set up, the
    process panics with that error after every group creation has been
    made and before any read: the creations, one per configured stream in
    order, are its only calls. *)
Theorem session_failure_panics_after_groups
    (env : Environ) (w : World) (cause : string) :
  ParseURL_err w (REDIS_URL env) = None →
  (∀ i, (i < length (splitStreams (REDIS_STREAMS env)))%nat →
        tolerated (XGroupCreateMkStream_err w i)) →
  NewSession_err w = Some cause →
  (main env w).2 = inl (Panicked cause)
  ∧ calls (main env w).1
    = map (λ stream, EvXGroupCreateMkStream stream (CONSUMER_GROUP env) "$")
        (splitStreams (REDIS_STREAMS env)).
Proof.
  intros Hurl Hall Hsess. rewrite main_parsed by done. unfold after_client.
  destruct (ensure_each_tolerated w (CONSUMER_GROUP env)
              (splitStreams (REDIS_STREAMS env)) 0 Hall) as [Hret Hcalls].
  rewrite (bind_returns _ _ tt) by exact Hret.
  unfold session_Must. rewrite Hsess.
  rewrite (bind_stops _ _ (Panicked cause)) by done. cbn [fst snd].
  rewrite app_nil_r. split; [reflexivity|exact Hcalls].
Qed.

Lemma session_failure_panics_after_groups_witness :
  let w := mkWorld (λ _, None) (λ _, None) (Some "NoCredentialProviders") [] in
  (main env_orders w).2 = inl (Panicked "NoCredentialProviders")
  ∧ calls (main env_orders w).1
    = [EvXGroupCreateMkStream "orders" "g1" "$";
       EvXGroupCreateMkStream "payments" "g1" "$"].
Proof.
  intros w.
  apply (session_failure_panics_after_groups env_orders w "NoCredentialProviders");
    [reflexivity| |reflexivity].
  intros i _. exact I.
Defined.

(** ** The dispatch loop over many iterations *)

Section loop.
Variables (streamList : list string) (consumerGroup lambdaName : string).

Lemma consume_app (replies later : list read_reply) :
  (consume streamList consumerGroup lambdaName (replies ++ later)).1
  = flat_map (λ reply, (iteration streamList consumerGroup lambdaName reply).1) replies
    ++ (consume streamList consumerGroup lambdaName later).1.
Proof.
  induction replies as [|reply rest IH]; [reflexivity|].
  cbn [app flat_map]. rewrite consume_cons. cbn [fst].
  rewrite IH, app_assoc. reflexivity.
Qed.

Lemma process_message_loop_events stream d :
  Forall (loop_event streamList consumerGroup lambdaName)
    (process_message consumerGroup lambdaName stream d).1
  ∧ List.filter is_read (process_message consumerGroup lambdaName stream d).1 = [].
Proof.
  destruct d as [msg [err|result] ack]; split;
    first [reflexivity | repeat constructor].
Qed.

Lemma range_entries_loop_events entries :
  Forall (loop_event streamList consumerGroup lambdaName)
    (range_entries consumerGroup lambdaName entries).1
  ∧ List.filter is_read (range_entries consumerGroup lambdaName entries).1 = [].
Proof.
  rewrite range_entries_events.
  induction entries as [|entry rest [IHall IHread]]; cbn [flat_map];
    [split; [constructor|reflexivity]|].
  rewrite Forall_app, List.filter_app, IHread, app_nil_r. split; [split; [|done]|].
  - induction (Messages entry) as [|d ms IHms]; cbn [flat_map]; [constructor|].
    apply Forall_app. split; [apply process_message_loop_events|done].
  - induction (Messages entry) as [|d ms IHms]; cbn [flat_map]; [reflexivity|].
    rewrite List.filter_app, IHms, app_nil_r. apply process_message_loop_events.
Qed.

Lemma iteration_loop_events reply :
  Forall (loop_event streamList consumerGroup lambdaName)
    (iteration streamList consumerGroup lambdaName reply).1
  ∧ List.filter is_read (iteration streamList consumerGroup lambdaName reply).1
    = [EvXReadGroup (read_args streamList consumerGroup)].
Proof.
  destruct reply as [err|entries]; [split; [repeat constructor|reflexivity]|].
  unfold iteration. rewrite (bind_returns _ _ tt) by reflexivity. cbn [fst emit].
  destruct (range_entries_loop_events entries) as [Hall Hread].
  split; [constructor; [reflexivity|exact Hall]|].
  change (List.filter is_read ([?e] ++ ?t)) with (e :: List.filter is_read t).
  rewrite Hread. reflexivity.
Qed.
End loop.

(** X8: the loop carries nothing from one iteration to the next: the
    events of a run are the events of its iterations, each determined by
    the answer to its own read, followed by the events of the rest of the
    run. *)
Theorem consume_iteration_by_iteration
    (streamList : list string) (consumerGroup lambdaName : string)
    (replies later : list read_reply) :
  (consume streamList consumerGroup lambdaName (replies ++ later)).1
  = flat_map (λ reply, (iteration streamList consumerGroup lambdaName reply).1) replies
    ++ (consume streamList consumerGroup lambdaName later).1.
Proof. apply consume_app. Qed.

(** X9: a loop that has received [n] answers to its reads has issued
    exactly [n + 1] reads, one per iteration and the one it waits in, all
    with the same arguments. *)
Theorem consume_reads
    (streamList : list string) (consumerGroup lambdaName : string)
    (replies : list read_reply) :
  List.filter is_read (consume streamList consumerGroup lambdaName replies).1
  = replicate (S (length replies)) (EvXReadGroup (read_args streamList consumerGroup)).
Proof.
  induction replies as [|reply later IH]; [reflexivity|].
  rewrite consume_cons. cbn [fst]. rewrite List.filter_app, IH.
  destruct (iteration_loop_events streamList consumerGroup lambdaName reply)
    as [_ ->].
  reflexivity.
Qed.

(** X10: inside the dispatch loop no group is created and no fatal line
    is logged; every read carries the fixed arguments, every invocation
    names the configured function and every acknowledgment the
    configured group. *)
Theorem consume_events_stay_in_protocol
    (streamList : list string) (consumerGroup lambdaName : string)
    (replies : list read_reply) :
  Forall (loop_event streamList consumerGroup lambdaName)
    (consume streamList consumerGroup lambdaName replies).1.
Proof.
  induction replies as [|reply later IH]; [by repeat constructor|].
  rewrite consume_cons. cbn [fst]. apply Forall_app. split; [|exact IH].
  apply iteration_loop_events.
Qed.

(** X11: the calls of a run of the loop, in order: for each answered
    read, the read and then, when it returned entries, for each message
    in returned order its invocation and (when that returned no error)
    its acknowledgment; last, the read the loop waits in.  A failed read
    contributes its read alone. *)
Theorem consume_calls
    (streamList : list string) (consumerGroup lambdaName : string)
    (replies : list read_reply) :
  calls (consume streamList consumerGroup lambdaName replies).1
  = flat_map (λ reply,
      EvXReadGroup (read_args streamList consumerGroup) ::
      match reply with
      | ReadErr _ => []
      | ReadOk entries =>
          flat_map (λ entry,
            flat_map (λ d,
              EvInvoke lambdaName (payload_of (message d)) ::
              (if returned_no_error (invoke_result d)
               then [EvXAck (Stream entry) consumerGroup (ID (message d))]
               else []))
              (Messages entry)) entries
      end) replies
    ++ [EvXReadGroup (read_args streamList consumerGroup)].
Proof.
  induction replies as [|reply later IH]; [reflexivity|].
  rewrite consume_cons. cbn [fst flat_map]. rewrite calls_app, IH.
  rewrite <- app_assoc. f_equal.
  destruct reply as [err|entries]; [reflexivity|].
  unfold iteration. rewrite (bind_returns _ _ tt) by reflexivity. cbn [fst emit].
  change (calls ([?e] ++ ?t)) with (e :: calls t) at 1.
  f_equal. rewrite range_entries_calls.
  induction entries as [|entry rest IHe]; cbn [flat_map]; [reflexivity|].
  rewrite IHe. f_equal.
  induction (Messages entry) as [|d ms IHms]; cbn [flat_map]; [reflexivity|].
  rewrite IHms. f_equal.
  unfold message_calls. destruct (invoke_result d); reflexivity.
Qed.

(** ** The rendering of the field map *)

#[local] Instance key_le_total : Total fmt.key_le.
Proof. intros p q. apply (total String.le). Qed.

(** X12: the payload of a message is the fixed frame around the pairs
    [key:value] of its field map, separated by blanks: each field of the
    message is rendered exactly once, no key twice, in increasing byte
    order of the keys. *)
Theorem payload_lists_the_fields (msg : XMessage) :
  ∃ fields : list (string * string),
    (∀ k v, (k, v) ∈ fields ↔ Values msg !! k = Some v)
    ∧ NoDup fields.*1
    ∧ Sorted fmt.key_le fields
    ∧ payload_of msg
      = "{" +:+ dquote +:+ "message" +:+ dquote +:+ ": " +:+ dquote
            +:+ ("map["
                 +:+ strings.Join (map (λ kv, kv.1 +:+ ":" +:+ kv.2) fields) " "
                 +:+ "]")
            +:+ dquote +:+ "}".
Proof.
  exists (fmt.sorted_fields (Values msg)). unfold fmt.sorted_fields.
  split; [|split; [|split]].
  - intros k v. rewrite merge_sort_Permutation. apply elem_of_map_to_list.
  - rewrite merge_sort_Permutation. apply NoDup_fst_map_to_list.
  - apply Sorted_merge_sort. apply _.
  - reflexivity.
Qed.

(** ** The calls of a whole run *)

(** X13: in a run that reaches the dispatch loop, the calls are first
    one group creation per name of the stream list, in configured order,
    each under the configured group and positioned at [$], and after
    them the calls of the loop; no creation is repeated or skipped, names
    occurring twice are created twice. *)
Theorem main_calls (env : Environ) (w : World) :
  ParseURL_err w (REDIS_URL env) = None →
  (∀ i, (i < length (splitStreams (REDIS_STREAMS env)))%nat →
        tolerated (XGroupCreateMkStream_err w i)) →
  NewSession_err w = None →
  calls (main env w).1
  = map (λ stream, EvXGroupCreateMkStream stream (CONSUMER_GROUP env) "$")
      (splitStreams (REDIS_STREAMS env))
    ++ calls (consume (splitStreams (REDIS_STREAMS env)) (CONSUMER_GROUP env)
                (LAMBDA_NAME env) (XReadGroup_replies w)).1.
Proof.
  intros Hurl Hall Hsess. rewrite main_parsed by done. unfold after_client.
  destruct (ensure_each_tolerated w (CONSUMER_GROUP env)
              (splitStreams (REDIS_STREAMS env)) 0 Hall) as [Hret Hcalls].
  rewrite (bind_returns _ _ tt) by exact Hret.
  unfold session_Must. rewrite Hsess, ret_bind. cbn [fst].
  rewrite calls_app, Hcalls. reflexivity.
Qed.

Lemma main_calls_witness :
  calls (main (mkEnviron "redis://localhost:6379" "orders,orders" "g1" "fn")
           (mkWorld (λ _, None)
              (λ k, match k with 0%nat => None | _ => Some BUSYGROUP end)
              None [])).1
  = [EvXGroupCreateMkStream "orders" "g1" "$";
     EvXGroupCreateMkStream "orders" "g1" "$";
     EvXReadGroup (read_args ["orders"; "orders"] "g1")].
Proof.
  apply (main_calls (mkEnviron "redis://localhost:6379" "orders,orders" "g1" "fn")
           (mkWorld (λ _, None)
              (λ k, match k with 0%nat => None | _ => Some BUSYGROUP end)
              None []));
    [reflexivity| |reflexivity].
  intros [|i] _; [exact I|reflexivity].
Defined.
